(** * node-chat-app: the socket handlers of [src/server.js]

    A shallow embedding of the four socket.io event handlers of the chat
    relay ([join], [sendMessage], [sendLocation], [disconnect]) together
    with the collaborators they call: the user registry of [utils/users],
    the event formatters of [utils/messages], the profanity filter and the
    room-addressed emit primitives of socket.io. *)

From Stdlib Require Import Ascii.
From stdpp Require Import gmap strings list fin_maps.

Set Default Proof Using "Type".

Open Scope string_scope.

(** ** String helpers of the registry model

    Strings are byte strings. [toLowerCase] and [trim] are the case folding
    and trimming with which the registry model compares and cleans names;
    they act on the ASCII range (letters [A]-[Z]; tab, line feed, vertical
    tab, form feed, carriage return and space). The method
    [String.prototype.toLowerCase] that [server.js] itself calls is not this
    function: it is a parameter of the handlers below. *)
Module Js.

Definition lower_ascii (c : ascii) : ascii :=
  let n := nat_of_ascii c in
  if (65 <=? n)%nat && (n <=? 90)%nat then ascii_of_nat (n + 32) else c.

Fixpoint toLowerCase (s : string) : string :=
  match s with
  | EmptyString => EmptyString
  | String c s' => String (lower_ascii c) (toLowerCase s')
  end.

Definition is_white (c : ascii) : bool :=
  let n := nat_of_ascii c in
  ((9 <=? n)%nat && (n <=? 13)%nat) || (n =? 32)%nat.

Fixpoint trimStart (s : string) : string :=
  match s with
  | EmptyString => EmptyString
  | String c s' => if is_white c then trimStart s' else s
  end.

Definition trimEnd (s : string) : string :=
  String.rev (trimStart (String.rev s)).

Definition trim (s : string) : string := trimEnd (trimStart s).

End Js.

(** ** Data model *)

(** A registry record, as [server.js] builds and reads it:
    [{ id: socket.id, username, room }]. *)
Record User : Type := mkUser {
  id : string;
  username : string;
  room : string
}.

Global Instance User_eq_dec : EqDecision User.
Proof. solve_decision. Defined.

Inductive AddUserError : Type := MissingField | UsernameTaken.

Global Instance AddUserError_eq_dec : EqDecision AddUserError.
Proof. solve_decision. Defined.

(** The string handed to the acknowledgement callback for each error. *)
Definition error_text (e : AddUserError) : string :=
  match e with
  | MissingField => "MissingField"
  | UsernameTaken => "UsernameTaken"
  end.

(** ** The user registry ([require('./utils/users')]) *)
Module Users.

(** Case-insensitive comparison of two names. *)
Definition sameName (a b : string) : bool :=
  String.eqb (Js.toLowerCase a) (Js.toLowerCase b).

(** Modelled from the spec: [getUsersInRoom] of [utils/users], which is not
    among the sources. All users whose room matches the given name,
    compared case-insensitively, as a snapshot list. *)
Definition getUsersInRoom (r : string) (reg : gmap string User) : list User :=
  filter (λ u, sameName (room u) r = true) (snd <$> map_to_list reg).

(** Does some user of room [r] already hold the name [n]? *)
Definition taken (n r : string) (reg : gmap string User) : bool :=
  existsb (λ u, sameName (username u) n) (getUsersInRoom r reg).

(** Modelled from the spec: [addUser] of [utils/users], which is not among
    the sources. Trims both fields; [MissingField] if either is empty after
    trimming; [UsernameTaken] if a user of the same room (case-insensitive)
    holds the name; otherwise the new user is inserted under its
    connection id and returned. *)
Definition addUser (sid rawUsername rawRoom : string) (reg : gmap string User)
  : (AddUserError + User) * gmap string User :=
  let n := Js.trim rawUsername in
  let r := Js.trim rawRoom in
  if String.eqb n "" || String.eqb r "" then (inl MissingField, reg)
  else if taken n r reg then (inl UsernameTaken, reg)
  else let user := mkUser sid n r in (inr user, <[sid := user]> reg).

(** Modelled from the spec: [removeUser] of [utils/users], which is not
    among the sources. Removes and returns the record of the connection if
    there is one, and reports absence otherwise. *)
Definition removeUser (sid : string) (reg : gmap string User)
  : option User * gmap string User :=
  (reg !! sid, delete sid reg).

(** Modelled from the spec: [getUser] of [utils/users], which is not among
    the sources. A pure lookup by connection id. *)
Definition getUser (sid : string) (reg : gmap string User) : option User :=
  reg !! sid.

(** The registry invariant of the data model: every record is filed under
    its own connection id, and two different entries of one room never
    carry the same name, both compared case-insensitively. *)
Definition keyed (reg : gmap string User) : Prop :=
  ∀ k u, reg !! k = Some u → id u = k.

Definition names_unique (reg : gmap string User) : Prop :=
  ∀ k1 k2 u1 u2,
    reg !! k1 = Some u1 → reg !! k2 = Some u2 → k1 ≠ k2 →
    sameName (room u1) (room u2) = true →
    sameName (username u1) (username u2) = false.

Definition RegistryInv (reg : gmap string User) : Prop :=
  keyed reg ∧ names_unique reg.

(** The same invariant stated on the user records themselves. *)
Definition registered (reg : gmap string User) (u : User) : Prop :=
  ∃ k, reg !! k = Some u.

Definition Unique (reg : gmap string User) : Prop :=
  (∀ u1 u2, registered reg u1 → registered reg u2 → u1 ≠ u2 →
     sameName (room u1) (room u2) = true →
     Js.toLowerCase (username u1) ≠ Js.toLowerCase (username u2))
  ∧ (∀ u1 u2, registered reg u1 → registered reg u2 →
       id u1 = id u2 → u1 = u2).

(** The two mutators as operations, and a registry after a sequence of
    them. *)
Inductive RegOp : Type :=
  | Add (sid rawUsername rawRoom : string)
  | Remove (sid : string).

Definition apply_op (reg : gmap string User) (op : RegOp) : gmap string User :=
  match op with
  | Add sid n r => (addUser sid n r reg).2
  | Remove sid => (removeUser sid reg).2
  end.

Definition exec (ops : list RegOp) (reg : gmap string User) : gmap string User :=
  fold_left apply_op ops reg.

(** The inputs that fail validation, with the error each one earns. *)
Inductive Invalid (rawUsername rawRoom : string) (reg : gmap string User)
  : AddUserError → Prop :=
  | empty_username :
      Js.trim rawUsername = "" → Invalid rawUsername rawRoom reg MissingField
  | empty_room :
      Js.trim rawRoom = "" → Invalid rawUsername rawRoom reg MissingField
  | duplicate_username k v :
      Js.trim rawUsername ≠ "" → Js.trim rawRoom ≠ "" →
      reg !! k = Some v →
      sameName (room v) (Js.trim rawRoom) = true →
      sameName (username v) (Js.trim rawUsername) = true →
      Invalid rawUsername rawRoom reg UsernameTaken.

End Users.

(** ** Events, effects and the state of the server *)

(** Modelled from the spec: the payloads that [generateMessage] and
    [generateLocation] of [utils/messages] build (that file is not among
    the sources), and the [roomInfo] object literal of [server.js]. *)
Inductive Payload (Coords : Type) : Type :=
  | Message (sender text : string) (createdAt : nat)
  | Location (sender : string) (coords : Coords) (createdAt : nat)
  | RoomInfo (name : string) (members : list User).

Arguments Message {Coords} sender text createdAt.
Arguments Location {Coords} sender coords createdAt.
Arguments RoomInfo {Coords} name members.

(** What a handler sends out: an event delivered to a set of connections,
    or the acknowledgement callback [cb(...)] of the connection that sent
    the inbound event ([None] is [cb()] with no argument). *)
Inductive Effect (Coords : Type) : Type :=
  | Deliver (targets : gset string) (event : string) (data : Payload Coords)
  | Ack (conn : string) (arg : option string).

Arguments Deliver {Coords} targets event data.
Arguments Ack {Coords} conn arg.

(** The server state: the registry of [utils/users], the room table of the
    socket.io adapter (room name to the sockets that joined it) and the
    clock that the formatters read. The room table holds the chat rooms
    and, for every socket that connected, the private room that socket.io
    names by the socket id; a client may choose such an id as the name of
    a chat room. *)
Record World : Type := mkWorld {
  users : gmap string User;
  rooms : gmap string (gset string);
  now : nat
}.

Definition init : World := mkWorld ∅ ∅ 0.

(** An exception thrown by the JavaScript runtime. *)
Inductive Exn : Type := TypeError (msg : string).

(** The result of running a handler: it returned or threw, the state it
    left, and the effects it sent, oldest first. *)
Record Run (Coords A : Type) : Type := mkRun {
  outcome : Exn + A;
  world : World;
  trace : list (Effect Coords)
}.

Arguments mkRun {Coords A} outcome world trace.
Arguments outcome {Coords A} r.
Arguments world {Coords A} r.
Arguments trace {Coords A} r.

Definition system : string := "Chat App".

(** The state of a connection as the registry shows it. *)
Inductive ConnState : Type := Connected | Joined.

Definition connState (sid : string) (w : World) : ConnState :=
  match Users.getUser sid (users w) with
  | Some _ => Joined
  | None => Connected
  end.

(** The sockets that are in a socket.io room. *)
Definition members (r : string) (w : World) : gset string :=
  default ∅ (rooms w !! r).

Section Server.

Context {Coords : Type}.

(** [String.prototype.toLowerCase] of the JavaScript runtime. *)
Variable toLowerCase : string → string.

(** [filter.isProfane] of the bad-words package. *)
Variable isProfane : string → bool.

Definition Handler (A : Type) : Type := World → Run Coords A.

(** *** The handler monad: state, trace and exceptions *)

Definition ret {A : Type} (a : A) : Handler A :=
  λ w, mkRun (inr a) w [].

Definition throw {A : Type} (e : Exn) : Handler A :=
  λ w, mkRun (inl e) w [].

Definition bind {A B : Type} (m : Handler A) (f : A → Handler B) : Handler B :=
  λ w,
    let r := m w in
    match outcome r with
    | inl e => mkRun (inl e) (world r) (trace r)
    | inr a =>
        let r' := f a (world r) in
        mkRun (outcome r') (world r') (trace r ++ trace r')
    end.

Notation "x <- m ;; k" := (bind m (λ x, k))
  (at level 100, m at next level, right associativity).
Notation "m ;;; k" := (bind m (λ _, k))
  (at level 100, right associativity).

Definition tell (e : Effect Coords) : Handler unit :=
  λ w, mkRun (inr tt) w [e].

(** *** Registry operations on the shared state *)

Definition addUser (sid username room : string) : Handler (AddUserError + User) :=
  λ w,
    let '(r, reg) := Users.addUser sid username room (users w) in
    mkRun (inr r) (mkWorld reg (rooms w) (now w)) [].

Definition removeUser (sid : string) : Handler (option User) :=
  λ w,
    let '(r, reg) := Users.removeUser sid (users w) in
    mkRun (inr r) (mkWorld reg (rooms w) (now w)) [].

Definition getUser (sid : string) : Handler (option User) :=
  λ w, mkRun (inr (Users.getUser sid (users w))) w [].

Definition getUsersInRoom (r : string) : Handler (list User) :=
  λ w, mkRun (inr (Users.getUsersInRoom r (users w))) w [].

(** *** Formatters of [utils/messages] *)

Definition generateMessage (sender text : string) : Handler (Payload Coords) :=
  λ w, mkRun (inr (Message sender text (now w))) w [].

Definition generateLocation (sender : string) (c : Coords) : Handler (Payload Coords) :=
  λ w, mkRun (inr (Location sender c (now w))) w [].

(** *** socket.io primitives, as the header comment of [server.js]
    describes them *)

(** [socket.join(room)] *)
Definition socket_join (sid r : string) : Handler unit :=
  λ w,
    mkRun (inr tt)
      (mkWorld (users w) (<[r := {[sid]} ∪ members r w]> (rooms w)) (now w)) [].

(** [socket.emit(event, data)]: to the client of this socket. *)
Definition socket_emit (sid event : string) (data : Payload Coords) : Handler unit :=
  tell (Deliver {[sid]} event data).

(** [socket.broadcast.to(room).emit(event, data)]: to every client in the
    room except the client of this socket. *)
Definition socket_broadcast_to_emit (sid r event : string) (data : Payload Coords)
  : Handler unit :=
  λ w, tell (Deliver (members r w ∖ {[sid]}) event data) w.

(** [io.to(room).emit(event, data)]: to every client in the room. *)
Definition io_to_emit (r event : string) (data : Payload Coords) : Handler unit :=
  λ w, tell (Deliver (members r w) event data) w.

(** The acknowledgement callback of an inbound event. The inbound events
    modelled are those that a client emits with an acknowledgement
    function, as the signatures [(..., cb) => ...] of the handlers
    expect. *)
Definition cb (sid : string) (arg : option string) : Handler unit :=
  tell (Ack sid arg).

(** Reading a property of a value that may be [undefined]. *)
Definition prop_room (user : option User) : Handler string :=
  match user with
  | Some u => ret (room u)
  | None => throw (TypeError "Cannot read property 'room' of undefined")
  end.

Definition prop_username (user : option User) : Handler string :=
  match user with
  | Some u => ret (username u)
  | None => throw (TypeError "Cannot read property 'username' of undefined")
  end.

(** *** The handlers of [server.js] *)

(** [socket.on('join', ({ username, room }, cb) => ...)] *)
Definition on_join (sid rawUsername rawRoom : string) : Handler unit :=
  r <- addUser sid rawUsername rawRoom ;;
  match r with
  | inl error => cb sid (Some (error_text error))
  | inr user =>
      socket_join sid (room user) ;;;
      (welcome <- generateMessage system
                    ("Welcome " +:+ toLowerCase rawUsername +:+ "!") ;;
       socket_emit sid "message" welcome) ;;;
      (joined <- generateMessage system (username user +:+ " has joined.") ;;
       socket_broadcast_to_emit sid (room user) "message" joined) ;;;
      (us <- getUsersInRoom (room user) ;;
       io_to_emit (room user) "roomInfo" (RoomInfo (room user) us)) ;;;
      cb sid None
  end.

(** [socket.on('sendMessage', (message, cb) => ...)] *)
Definition on_sendMessage (sid message : string) : Handler unit :=
  user <- getUser sid ;;
  if isProfane message then cb sid (Some "Profanity is not allowed.")
  else
    (r <- prop_room user ;;
     n <- prop_username user ;;
     m <- generateMessage n message ;;
     io_to_emit r "message" m) ;;;
    cb sid None.

(** [socket.on('sendLocation', (location, cb) => ...)] *)
Definition on_sendLocation (sid : string) (location : Coords) : Handler unit :=
  user <- getUser sid ;;
  (r <- prop_room user ;;
   n <- prop_username user ;;
   l <- generateLocation n location ;;
   io_to_emit r "location" l) ;;;
  cb sid None.

(** [socket.on('disconnect', () => ...)] *)
Definition on_disconnect (sid : string) : Handler unit :=
  user <- removeUser sid ;;
  match user with
  | Some u =>
      (left <- generateMessage system (username u +:+ " has left the room.") ;;
       io_to_emit (room u) "message" left) ;;;
      (us <- getUsersInRoom (room u) ;;
       io_to_emit (room u) "roomInfo" (RoomInfo (room u) us))
  | None => ret tt
  end.

(** *** The transport driving the handlers *)

(** When a socket closes, socket.io takes it out of every room before the
    [disconnect] listeners run. *)
Definition leaveAll (sid : string) : Handler unit :=
  λ w,
    mkRun (inr tt)
      (mkWorld (users w) ((λ s : gset string, s ∖ {[sid]}) <$> rooms w) (now w)) [].

Definition close (sid : string) : Handler unit :=
  leaveAll sid ;;; on_disconnect sid.

(** [io.on('connection', socket => ...)]: before the listener runs,
    socket.io has put the new socket into the room named by its id; the
    listener logs a line and registers the four handlers. *)
Definition on_connection (sid : string) : Handler unit :=
  socket_join sid sid.

(** What can happen to the server: a socket connects, a connection sends
    an inbound event (with a payload of the expected shape), a connection
    closes, or time passes. *)
Inductive Input : Type :=
  | Connect (sid : string)
  | Join (sid username room : string)
  | SendMessage (sid message : string)
  | SendLocation (sid : string) (location : Coords)
  | Disconnect (sid : string)
  | Tick.

Definition handle (i : Input) : Handler unit :=
  match i with
  | Connect sid => on_connection sid
  | Join sid u r => on_join sid u r
  | SendMessage sid m => on_sendMessage sid m
  | SendLocation sid l => on_sendLocation sid l
  | Disconnect sid => close sid
  | Tick => λ w, mkRun (inr tt) (mkWorld (users w) (rooms w) (S (now w))) []
  end.

(** The server handles its inputs one after the other. An exception that
    leaves a handler is caught by nobody: the process exits, and the
    inputs that follow are never handled. *)
Fixpoint run (inputs : list Input) (w : World) : World :=
  match inputs with
  | [] => w
  | i :: rest =>
      let r := handle i w in
      match outcome r with
      | inr _ => run rest (world r)
      | inl _ => world r
      end
  end.

(** Every joined connection sits in the socket.io room of its record. *)
Definition joined_in_room (w : World) : Prop :=
  ∀ sid u, users w !! sid = Some u → sid ∈ members (room u) w.

Definition Consistent (w : World) : Prop :=
  Users.RegistryInv (users w) ∧ joined_in_room w.

End Server.

Arguments Handler : clear implicits.
Arguments Input : clear implicits.

(** ** Observations on inputs, traces and states *)

(** The connection whose client sent an inbound event; the connecting and
    closing of a socket and the passing of time come from the transport. *)
Definition sender_of {Coords : Type} (i : Input Coords) : option string :=
  match i with
  | Connect _ => None
  | Join sid _ _ => Some sid
  | SendMessage sid _ => Some sid
  | SendLocation sid _ => Some sid
  | Disconnect _ => None
  | Tick => None
  end.

Definition is_send {Coords : Type} (i : Input Coords) : bool :=
  match i with
  | SendMessage _ _ => true
  | SendLocation _ _ => true
  | _ => false
  end.

(** The acknowledgements of a trace, in order. *)
Definition acks {Coords : Type} (t : list (Effect Coords))
  : list (string * option string) :=
  omap (λ e, match e with
             | Ack conn arg => Some (conn, arg)
             | Deliver _ _ _ => None
             end) t.

(** Every socket that sits in a socket.io room has a user record, unless
    the room is the private room named by its own id. *)
Definition rooms_accounted (w : World) : Prop :=
  ∀ c r, c ∈ members r w → is_Some (users w !! c) ∨ r = c.

(** ** Sample data *)

(** A filter that objects to one word. *)
Definition no_darn (s : string) : bool := String.eqb s "darn".

Definition alice : User := mkUser "s1" "Alice" "lobby".
Definition bob : User := mkUser "s2" "Bob" "lobby".
Definition carol : User := mkUser "s3" "Carol" "lobby".

(** Alice and Bob connect and join the lobby, Bob after Alice. *)
Definition lobby_inputs : list (Input unit) :=
  [ Connect "s1"; Join "s1" " Alice " "lobby";
    Connect "s2"; Join "s2" "Bob" "lobby" ].

Definition lobby : World := run Js.toLowerCase no_darn lobby_inputs init.

(** * Properties *)

(** ** Facts about the registry *)
Module UsersFacts.
Import Users.

Lemma sameName_refl a : sameName a a = true.
Proof. unfold sameName. apply String.eqb_refl. Qed.

Lemma sameName_sym a b : sameName a b = sameName b a.
Proof. unfold sameName. apply String.eqb_sym. Qed.

Lemma sameName_spec a b :
  sameName a b = true ↔ Js.toLowerCase a = Js.toLowerCase b.
Proof. unfold sameName. apply String.eqb_eq. Qed.

Lemma sameName_trans a b c :
  sameName a b = true → sameName b c = true → sameName a c = true.
Proof. rewrite !sameName_spec. congruence. Qed.

(** The snapshot of a room holds exactly the registered users whose room
    matches, whatever the case of the query. *)
Lemma elem_of_getUsersInRoom r (reg : gmap string User) u :
  u ∈ getUsersInRoom r reg ↔
  (∃ k, reg !! k = Some u) ∧ sameName (room u) r = true.
Proof.
  unfold getUsersInRoom.
  rewrite list_elem_of_filter, list_elem_of_fmap. split.
  - intros [Hr [[k v] [-> Hin]]]. apply elem_of_map_to_list in Hin.
    split; [by exists k | done].
  - intros [[k Hk] Hr]. split; [done |].
    exists (k, u). split; [done | by apply elem_of_map_to_list].
Qed.

Lemma getUsersInRoom_case r r' (reg : gmap string User) :
  sameName r r' = true → getUsersInRoom r reg = getUsersInRoom r' reg.
Proof.
  intros Hrr. unfold getUsersInRoom.
  induction (snd <$> map_to_list reg) as [|u l IH]; [done |].
  rewrite !filter_cons, IH.
  assert (sameName (room u) r = sameName (room u) r') as ->; [| done].
  apply sameName_spec in Hrr. unfold sameName. by rewrite Hrr.
Qed.

Lemma taken_spec n r (reg : gmap string User) :
  taken n r reg = true ↔
  ∃ k u, reg !! k = Some u ∧ sameName (room u) r = true
         ∧ sameName (username u) n = true.
Proof.
  unfold taken. rewrite existsb_exists. split.
  - intros [u [Hin Hn]]. apply list_elem_of_In, elem_of_getUsersInRoom in Hin.
    destruct Hin as [[k Hk] Hr]. by exists k, u.
  - intros (k & u & Hk & Hr & Hn). exists u. split; [| done].
    apply list_elem_of_In, elem_of_getUsersInRoom. split; [by exists k | done].
Qed.

Lemma taken_false n r (reg : gmap string User) k u :
  taken n r reg = false → reg !! k = Some u →
  sameName (room u) r = true → sameName (username u) n = false.
Proof.
  intros Ht Hk Hr. destruct (sameName (username u) n) eqn:Hn; [| done].
  assert (taken n r reg = true) as Ht'; [| congruence].
  apply taken_spec. by exists k, u.
Qed.

(** The three ways [addUser] can end. *)
Lemma addUser_missing sid n r (reg : gmap string User) :
  Js.trim n = "" ∨ Js.trim r = "" →
  addUser sid n r reg = (inl MissingField, reg).
Proof.
  intros H. unfold addUser.
  destruct H as [-> | ->]; simpl; [done |].
  by rewrite orb_true_r.
Qed.

Lemma nonempty_eqb (s : string) : s ≠ "" → String.eqb s "" = false.
Proof. intros H. by apply String.eqb_neq. Qed.

Lemma addUser_taken sid n r (reg : gmap string User) :
  Js.trim n ≠ "" → Js.trim r ≠ "" →
  taken (Js.trim n) (Js.trim r) reg = true →
  addUser sid n r reg = (inl UsernameTaken, reg).
Proof.
  intros Hn Hr Ht. unfold addUser.
  by rewrite (nonempty_eqb _ Hn), (nonempty_eqb _ Hr), Ht.
Qed.

Lemma addUser_fresh sid n r (reg : gmap string User) :
  Js.trim n ≠ "" → Js.trim r ≠ "" →
  taken (Js.trim n) (Js.trim r) reg = false →
  addUser sid n r reg
  = (inr (mkUser sid (Js.trim n) (Js.trim r)),
     <[sid := mkUser sid (Js.trim n) (Js.trim r)]> reg).
Proof.
  intros Hn Hr Ht. unfold addUser.
  by rewrite (nonempty_eqb _ Hn), (nonempty_eqb _ Hr), Ht.
Qed.

Lemma addUser_inr sid n r (reg reg' : gmap string User) u :
  addUser sid n r reg = (inr u, reg') →
  u = mkUser sid (Js.trim n) (Js.trim r) ∧ reg' = <[sid := u]> reg
  ∧ Js.trim n ≠ "" ∧ Js.trim r ≠ ""
  ∧ taken (Js.trim n) (Js.trim r) reg = false.
Proof.
  unfold addUser.
  destruct (String.eqb (Js.trim n) "") eqn:Hn; simpl; [congruence |].
  destruct (String.eqb (Js.trim r) "") eqn:Hr; simpl; [congruence |].
  destruct (taken (Js.trim n) (Js.trim r) reg) eqn:Ht; [congruence |].
  intros [= <- <-]. apply String.eqb_neq in Hn, Hr. done.
Qed.

Lemma addUser_inl sid n r (reg reg' : gmap string User) e :
  addUser sid n r reg = (inl e, reg') → reg' = reg.
Proof.
  unfold addUser.
  destruct (_ || _); [congruence |].
  destruct (taken _ _ _); congruence.
Qed.

(** The invariant holds of the empty registry and both mutators keep it. *)
Lemma RegistryInv_empty : RegistryInv ∅.
Proof. split; intros k; intros; simplify_map_eq. Qed.

Lemma addUser_inv sid n r (reg : gmap string User) :
  RegistryInv reg → RegistryInv (addUser sid n r reg).2.
Proof.
  intros [Hkey Huniq].
  destruct (addUser sid n r reg) as [[e | u] reg'] eqn:Hadd; simpl.
  - apply addUser_inl in Hadd as ->. by split.
  - apply addUser_inr in Hadd as (-> & -> & _ & _ & Ht). split.
    + intros k v Hk. apply lookup_insert_Some in Hk as [[<- <-] | [_ Hk]];
        [done | by apply Hkey].
    + intros k1 k2 u1 u2 H1 H2 Hne Hroom.
      apply lookup_insert_Some in H1 as [[<- <-] | [Hk1 H1]];
        apply lookup_insert_Some in H2 as [[<- <-] | [Hk2 H2]]; simpl in *.
      * done.
      * rewrite sameName_sym. rewrite sameName_sym in Hroom.
        by eapply taken_false.
      * by eapply taken_false.
      * by eapply Huniq.
Qed.

Lemma removeUser_inv sid (reg : gmap string User) :
  RegistryInv reg → RegistryInv (removeUser sid reg).2.
Proof.
  intros [Hkey Huniq]. unfold removeUser; simpl. split.
  - intros k v Hk. apply lookup_delete_Some in Hk as [_ Hk]. by apply Hkey.
  - intros k1 k2 u1 u2 H1 H2 Hne Hroom.
    apply lookup_delete_Some in H1 as [_ H1].
    apply lookup_delete_Some in H2 as [_ H2]. by eapply Huniq.
Qed.

Lemma RegistryInv_Unique (reg : gmap string User) :
  RegistryInv reg → Unique reg.
Proof.
  intros [Hkey Huniq]. split.
  - intros u1 u2 [k1 H1] [k2 H2] Hne Hroom Hname.
    assert (k1 ≠ k2) as Hk by (intros ->; congruence).
    pose proof (Huniq _ _ _ _ H1 H2 Hk Hroom) as Hfalse.
    apply sameName_spec in Hname. congruence.
  - intros u1 u2 [k1 H1] [k2 H2] Hid.
    apply Hkey in H1 as Hk1. apply Hkey in H2 as Hk2. congruence.
Qed.

Lemma exec_inv ops (reg : gmap string User) :
  RegistryInv reg → RegistryInv (exec ops reg).
Proof.
  unfold exec. revert reg.
  induction ops as [|op ops IH]; intros reg Hinv; simpl; [done |].
  apply IH. destruct op; simpl; [by apply addUser_inv | by apply removeUser_inv].
Qed.

End UsersFacts.

(** ** Facts about strings *)
Module StringFacts.



End StringFacts.

(** ** Facts about the handlers *)
Section ServerFacts.

Context {Coords : Type}.
Variable toLowerCase : string → string.
Variable isProfane : string → bool.

Lemma world_eta w : mkWorld (users w) (rooms w) (now w) = w.
Proof. by destruct w. Qed.

Lemma members_join sid r r' w us n :
  members r' (mkWorld us (<[r := {[sid]} ∪ members r w]> (rooms w)) n)
  = if decide (r = r') then {[sid]} ∪ members r' w else members r' w.
Proof.
  unfold members at 1. simpl. case_decide as Hr.
  - subst. by rewrite lookup_insert_eq.
  - by rewrite lookup_insert_ne.
Qed.

Lemma members_leave sid r w us n :
  members r (mkWorld us ((λ s : gset string, s ∖ {[sid]}) <$> rooms w) n)
  = members r w ∖ {[sid]}.
Proof.
  unfold members. simpl.
  rewrite lookup_fmap. destruct (rooms w !! r); simpl; [done |].
  apply set_eq. intros x. rewrite elem_of_difference, elem_of_empty.
  split; [done | by intros [? _]].
Qed.

Lemma leave_twice sid (rs : gmap string (gset string)) :
  (λ s : gset string, s ∖ {[sid]}) <$> ((λ s : gset string, s ∖ {[sid]}) <$> rs)
  = (λ s : gset string, s ∖ {[sid]}) <$> rs.
Proof.
  rewrite <- map_fmap_compose. apply map_fmap_ext.
  intros k s _. simpl. apply set_eq. intros x.
  rewrite !elem_of_difference.
  split; [by intros [? _] | intros [? ?]; by repeat split].
Qed.

(** A step that only changes the state hands over to its continuation. *)
Lemma bind_silent {A B : Type}
    (m : Handler Coords A) (k : A → Handler Coords B) w a w' :
  m w = mkRun (Coords := Coords) (inr a) w' [] → bind m k w = k a w'.
Proof.
  intros Hm. unfold bind. rewrite Hm. simpl. by destruct (k a w').
Qed.

(** *** What each handler does, case by case *)

Lemma on_join_rejected sid rawUsername rawRoom w e :
  Users.addUser sid rawUsername rawRoom (users w) = (inl e, users w) →
  on_join (Coords := Coords) toLowerCase sid rawUsername rawRoom w
  = mkRun (inr tt) w [Ack sid (Some (error_text e))].
Proof.
  intros Hadd. unfold on_join, bind, addUser. rewrite Hadd. simpl.
  by rewrite world_eta.
Qed.

Lemma on_join_accepted sid rawUsername rawRoom w u reg' :
  Users.addUser sid rawUsername rawRoom (users w) = (inr u, reg') →
  on_join (Coords := Coords) toLowerCase sid rawUsername rawRoom w
  = let w' := mkWorld reg'
                (<[room u := {[sid]} ∪ members (room u) w]> (rooms w)) (now w) in
    mkRun (inr tt) w'
      [ Deliver {[sid]} "message"
          (Message system ("Welcome " +:+ toLowerCase rawUsername +:+ "!")
             (now w));
        Deliver (members (room u) w' ∖ {[sid]}) "message"
          (Message system (username u +:+ " has joined.") (now w));
        Deliver (members (room u) w') "roomInfo"
          (RoomInfo (room u) (Users.getUsersInRoom (room u) reg'));
        Ack sid None ].
Proof.
  intros Hadd. unfold on_join, bind, addUser. rewrite Hadd. reflexivity.
Qed.

Lemma on_sendMessage_profane sid message w :
  isProfane message = true →
  on_sendMessage isProfane sid message w
  = mkRun (Coords := Coords) (inr tt) w
      [Ack sid (Some "Profanity is not allowed.")].
Proof.
  intros Hp. unfold on_sendMessage, bind, getUser. simpl. by rewrite Hp.
Qed.

Lemma on_sendMessage_unjoined sid message w :
  isProfane message = false → Users.getUser sid (users w) = None →
  on_sendMessage isProfane sid message w
  = mkRun (Coords := Coords)
      (inl (TypeError "Cannot read property 'room' of undefined")) w [].
Proof.
  intros Hp Hu. unfold on_sendMessage, bind, getUser. simpl.
  by rewrite Hp, Hu.
Qed.

Lemma on_sendMessage_joined sid message w u :
  isProfane message = false → Users.getUser sid (users w) = Some u →
  on_sendMessage isProfane sid message w
  = mkRun (Coords := Coords) (inr tt) w
      [ Deliver (members (room u) w) "message"
          (Message (username u) message (now w));
        Ack sid None ].
Proof.
  intros Hp Hu. unfold on_sendMessage, bind, getUser. simpl.
  by rewrite Hp, Hu.
Qed.

Lemma on_sendLocation_unjoined sid (location : Coords) w :
  Users.getUser sid (users w) = None →
  on_sendLocation sid location w
  = mkRun (inl (TypeError "Cannot read property 'room' of undefined")) w [].
Proof.
  intros Hu. unfold on_sendLocation, bind, getUser. simpl. by rewrite Hu.
Qed.

Lemma on_sendLocation_joined sid (location : Coords) w u :
  Users.getUser sid (users w) = Some u →
  on_sendLocation sid location w
  = mkRun (inr tt) w
      [ Deliver (members (room u) w) "location"
          (Location (username u) location (now w));
        Ack sid None ].
Proof.
  intros Hu. unfold on_sendLocation, bind, getUser. simpl. by rewrite Hu.
Qed.

Lemma on_disconnect_unjoined sid w :
  Users.getUser sid (users w) = None →
  on_disconnect (Coords := Coords) sid w = mkRun (inr tt) w [].
Proof.
  intros Hu. unfold Users.getUser in Hu.
  unfold on_disconnect, bind, removeUser, Users.removeUser. simpl.
  rewrite Hu. simpl. by rewrite (delete_id _ _ Hu), world_eta.
Qed.

Lemma on_disconnect_joined sid w u :
  Users.getUser sid (users w) = Some u →
  on_disconnect (Coords := Coords) sid w
  = let w' := mkWorld (delete sid (users w)) (rooms w) (now w) in
    mkRun (inr tt) w'
      [ Deliver (members (room u) w) "message"
          (Message system (username u +:+ " has left the room.") (now w));
        Deliver (members (room u) w) "roomInfo"
          (RoomInfo (room u)
             (Users.getUsersInRoom (room u) (delete sid (users w)))) ].
Proof.
  intros Hu. unfold Users.getUser in Hu.
  unfold on_disconnect, bind, removeUser, Users.removeUser. simpl.
  by rewrite Hu.
Qed.

Lemma on_disconnect_users sid w :
  users (world (on_disconnect (Coords := Coords) sid w)) = delete sid (users w).
Proof.
  destruct (Users.getUser sid (users w)) as [u |] eqn:Hu.
  - by rewrite (on_disconnect_joined _ _ _ Hu).
  - rewrite (on_disconnect_unjoined _ _ Hu). symmetry. by apply delete_id.
Qed.

Lemma close_unfold sid w :
  close (Coords := Coords) sid w
  = on_disconnect sid
      (mkWorld (users w) ((λ s : gset string, s ∖ {[sid]}) <$> rooms w) (now w)).
Proof.
  unfold close.
  exact (bind_silent (leaveAll sid) (λ _, on_disconnect sid) w tt _ eq_refl).
Qed.

Lemma close_world sid w :
  world (close (Coords := Coords) sid w)
  = mkWorld (delete sid (users w))
      ((λ s : gset string, s ∖ {[sid]}) <$> rooms w) (now w).
Proof.
  rewrite close_unfold. set (w1 := mkWorld _ _ _).
  destruct (Users.getUser sid (users w1)) as [u |] eqn:Hu.
  - by rewrite (on_disconnect_joined _ _ _ Hu).
  - rewrite (on_disconnect_unjoined _ _ Hu). subst w1. simpl in *.
    f_equal. symmetry. by apply delete_id.
Qed.

(** *** Reachable states are consistent *)

Lemma init_consistent : Consistent init.
Proof.
  split; [apply UsersFacts.RegistryInv_empty |].
  intros sid u H. unfold init in H. simpl in H. by rewrite lookup_empty in H.
Qed.

Lemma on_join_consistent sid rawUsername rawRoom w :
  Consistent w →
  Consistent (world (on_join (Coords := Coords) toLowerCase sid rawUsername rawRoom w)).
Proof.
  intros [Hinv Hin].
  pose proof (UsersFacts.addUser_inv sid rawUsername rawRoom _ Hinv) as Hinv'.
  destruct (Users.addUser sid rawUsername rawRoom (users w))
    as [[e | u] reg'] eqn:Hadd.
  - apply UsersFacts.addUser_inl in Hadd as Hreg. subst reg'.
    rewrite (on_join_rejected _ _ _ _ _ Hadd). by split.
  - rewrite (on_join_accepted _ _ _ _ _ _ Hadd). simpl. split; [done |].
    apply UsersFacts.addUser_inr in Hadd as (_ & -> & _).
    intros sid' v Hv. simpl in Hv. rewrite members_join. apply lookup_insert_Some in Hv as [[<- <-] | [Hne Hv]].
    + rewrite decide_True by done. by apply elem_of_union_l, elem_of_singleton.
    + apply Hin in Hv. case_decide; [apply elem_of_union_r |]; done.
Qed.

Lemma close_consistent sid w :
  Consistent w → Consistent (world (close (Coords := Coords) sid w)).
Proof.
  intros [Hinv Hin]. rewrite close_unfold.
  set (w1 := mkWorld _ _ _).
  assert (∀ w2 : World,
            users w2 = delete sid (users w) → rooms w2 = rooms w1 →
            Consistent w2) as Hgoal.
  { intros w2 Hu Hr. split.
    - rewrite Hu. by apply (UsersFacts.removeUser_inv sid).
    - intros sid' v Hv. rewrite Hu in Hv.
      apply lookup_delete_Some in Hv as [Hne Hv].
      replace (members (room v) w2) with (members (room v) w1)
        by (unfold members; by rewrite Hr).
      subst w1. rewrite members_leave. apply Hin in Hv.
      apply elem_of_difference. split; [done |].
      rewrite elem_of_singleton. congruence. }
  destruct (Users.getUser sid (users w1)) as [u |] eqn:Hu.
  - rewrite (on_disconnect_joined _ _ _ Hu). by apply Hgoal.
  - rewrite (on_disconnect_unjoined _ _ Hu). apply Hgoal; [| done].
    subst w1; simpl in *. symmetry. by apply delete_id.
Qed.

Lemma on_sendMessage_world sid message w :
  world (on_sendMessage (Coords := Coords) isProfane sid message w) = w.
Proof.
  destruct (isProfane message) eqn:Hp.
  - by rewrite on_sendMessage_profane.
  - destruct (Users.getUser sid (users w)) as [u |] eqn:Hu.
    + by rewrite (on_sendMessage_joined _ _ _ _ Hp Hu).
    + by rewrite (on_sendMessage_unjoined _ _ _ Hp Hu).
Qed.

Lemma on_sendLocation_world sid (location : Coords) w :
  world (on_sendLocation sid location w) = w.
Proof.
  destruct (Users.getUser sid (users w)) as [u |] eqn:Hu.
  - by rewrite (on_sendLocation_joined _ _ _ _ Hu).
  - by rewrite (on_sendLocation_unjoined _ _ _ Hu).
Qed.

Lemma on_connection_unfold sid w :
  on_connection (Coords := Coords) sid w
  = mkRun (inr tt)
      (mkWorld (users w) (<[sid := {[sid]} ∪ members sid w]> (rooms w)) (now w))
      [].
Proof. reflexivity. Qed.

Lemma handle_consistent w (i : Input Coords) :
  Consistent w → Consistent (world (handle toLowerCase isProfane i w)).
Proof.
  intros Hw.
  destruct i as [sid | sid n r | sid m | sid l | sid |]; unfold handle.
  - destruct Hw as [Hinv Hin]. rewrite on_connection_unfold. simpl.
    split; [done |]. intros sid' v Hv. simpl in Hv. rewrite members_join.
    apply Hin in Hv. case_decide; [apply elem_of_union_r |]; done.
  - by apply on_join_consistent.
  - by rewrite on_sendMessage_world.
  - by rewrite on_sendLocation_world.
  - by apply close_consistent.
  - destruct Hw as [Hinv Hin]. by split.
Qed.

Lemma run_consistent (inputs : list (Input Coords)) w :
  Consistent w → Consistent (run toLowerCase isProfane inputs w).
Proof.
  revert w.
  induction inputs as [|i inputs IH]; intros w Hw; simpl; [done |].
  pose proof (handle_consistent w i Hw) as Hstep.
  destruct (outcome (handle toLowerCase isProfane i w)); [done | by apply IH].
Qed.

End ServerFacts.

(** ** The registry against its specification *)

(** C2. From a registry that satisfies the invariant, the empty one for
    instance, every sequence of [addUser] and [removeUser] calls leads to a
    registry that satisfies it again: two different users of one room
    (rooms compared case-insensitively, equal rooms in particular) have
    usernames that differ case-insensitively, and no two different users
    share a connection id. *)
Theorem registry_invariant_preserved ops (reg : gmap string User) :
  Users.RegistryInv reg →
  Users.RegistryInv (Users.exec ops reg) ∧ Users.Unique (Users.exec ops reg).
Proof.
  intros Hinv. apply (UsersFacts.exec_inv ops) in Hinv.
  split; [done | by apply UsersFacts.RegistryInv_Unique].
Qed.

(** ** The handlers against their specification *)
Section Claims.

Context {Coords : Type}.
Variable toLowerCase : string → string.
Variable isProfane : string → bool.

(** C1 (the behaviour of the code, where the specification asks for a
    [NotJoined] acknowledgement). For a connection with no user bound,
    [sendLocation], and [sendMessage] with a text the filter accepts, read
    [user.room] of [undefined]: the handler throws a [TypeError], nothing is
    acknowledged and nothing is delivered. *)
Theorem unjoined_send_throws sid w :
  connState sid w = Connected →
  (∀ location : Coords,
     on_sendLocation sid location w
     = mkRun (inl (TypeError "Cannot read property 'room' of undefined")) w [])
  ∧ (∀ message,
       isProfane message = false →
       on_sendMessage isProfane sid message w
       = mkRun (Coords := Coords)
           (inl (TypeError "Cannot read property 'room' of undefined")) w []).
Proof.
  unfold connState. intros Hc.
  destruct (Users.getUser sid (users w)) eqn:Hu; [done |]. split.
  - intros location. by apply on_sendLocation_unjoined.
  - intros message Hp. by apply on_sendMessage_unjoined.
Qed.

(** X12. When [addUser] accepts, the join handler has exactly these
    effects, in this order: the welcome through [socket.emit], to the
    joining socket alone; the announcement through
    [socket.broadcast.to(user.room)], to the sockets of the socket.io room
    named [user.room] other than the joiner; the [roomInfo] with
    [user.room] and [getUsersInRoom(user.room)] through [io.to(user.room)],
    to the sockets of that room, the joiner now among them; then [cb()].
    The list sent is the registry's list for that room name, the new user
    in it. *)
Theorem join_success_effects sid rawUsername rawRoom w u reg' :
  Users.addUser sid rawUsername rawRoom (users w) = (inr u, reg') →
  let w' := mkWorld reg'
              (<[room u := {[sid]} ∪ members (room u) w]> (rooms w)) (now w) in
  let roster := Users.getUsersInRoom (room u) reg' in
  on_join (Coords := Coords) toLowerCase sid rawUsername rawRoom w
  = mkRun (inr tt) w'
      [ Deliver {[sid]} "message"
          (Message system ("Welcome " +:+ toLowerCase rawUsername +:+ "!")
             (now w));
        Deliver (members (room u) w' ∖ {[sid]}) "message"
          (Message system (username u +:+ " has joined.") (now w));
        Deliver (members (room u) w') "roomInfo" (RoomInfo (room u) roster);
        Ack sid None ]
  ∧ connState sid w' = Joined
  ∧ sid ∈ members (room u) w'
  ∧ (sid ∉ members (room u) w' ∖ {[sid]})
  ∧ (∀ c, c ≠ sid → c ∈ members (room u) w →
          c ∈ (members (room u) w' ∖ {[sid]}))
  ∧ u ∈ roster
  ∧ (∀ v, v ∈ roster ↔
          Users.registered reg' v ∧ Users.sameName (room v) (room u) = true).
Proof.
  intros Hadd w' roster.
  split; [by apply on_join_accepted |].
  apply UsersFacts.addUser_inr in Hadd as Hshape.
  destruct Hshape as (_ & Hreg & _).
  assert (members (room u) w' = {[sid]} ∪ members (room u) w) as Hmem.
  { subst w'. rewrite members_join. by rewrite decide_True. }
  assert (reg' !! sid = Some u) as Hsid by (subst reg'; apply lookup_insert_eq).
  rewrite Hmem. split; [| split; [| split; [| split; [| split]]]].
  - unfold connState, Users.getUser. simpl. by rewrite Hsid.
  - apply elem_of_union_l. by apply elem_of_singleton.
  - rewrite elem_of_difference, elem_of_singleton. by intros [_ Hne].
  - intros c Hne Hc.
    rewrite elem_of_difference, elem_of_union, elem_of_singleton.
    split; [by right | done].
  - apply UsersFacts.elem_of_getUsersInRoom.
    split; [by exists sid | apply UsersFacts.sameName_refl].
  - intros v. apply UsersFacts.elem_of_getUsersInRoom.
Qed.

(** C5. A message that the filter classifies as profane is answered with
    the acknowledgement ['Profanity is not allowed.'] and nothing else: no
    event is delivered to any connection and the state, the registry in
    particular, is as it was. *)
Theorem profane_message_rejected sid message w :
  isProfane message = true →
  on_sendMessage isProfane sid message w
  = mkRun (Coords := Coords) (inr tt) w
      [Ack sid (Some "Profanity is not allowed.")]
  ∧ (∀ targets event data,
       Deliver targets event data
       ∉ trace (on_sendMessage (Coords := Coords) isProfane sid message w))
  ∧ users (world (on_sendMessage (Coords := Coords) isProfane sid message w))
    = users w.
Proof.
  intros Hp. rewrite (on_sendMessage_profane _ _ _ _ Hp). simpl.
  repeat split. intros targets event data Hin.
  by apply list_elem_of_singleton in Hin.
Qed.

(** C7. A join that fails validation (a username or room that is empty
    after trimming, or a username already held in the room) is answered
    with the acknowledgement of its own error and nothing else: no event
    is delivered, the registry and the rooms are as they were, and the
    connection is in the state it was in, so that it may try again. *)
Theorem join_failure sid rawUsername rawRoom w e :
  Users.Invalid rawUsername rawRoom (users w) e →
  on_join (Coords := Coords) toLowerCase sid rawUsername rawRoom w
  = mkRun (inr tt) w [Ack sid (Some (error_text e))]
  ∧ (∀ targets event data,
       Deliver targets event data
       ∉ trace (on_join (Coords := Coords) toLowerCase sid rawUsername rawRoom w))
  ∧ users (world (on_join (Coords := Coords) toLowerCase sid rawUsername rawRoom w))
    = users w
  ∧ connState sid
      (world (on_join (Coords := Coords) toLowerCase sid rawUsername rawRoom w))
    = connState sid w.
Proof.
  intros Hbad.
  assert (Users.addUser sid rawUsername rawRoom (users w) = (inl e, users w))
    as Hadd.
  { destruct Hbad as [Hn | Hr | k v Hn Hr Hk Hroom Hname].
    - apply UsersFacts.addUser_missing. by left.
    - apply UsersFacts.addUser_missing. by right.
    - apply UsersFacts.addUser_taken; [done | done |].
      apply UsersFacts.taken_spec. by exists k, v. }
  rewrite (on_join_rejected _ _ _ _ _ _ Hadd). simpl.
  repeat split. intros targets event data Hin.
  by apply list_elem_of_singleton in Hin.
Qed.

(** C9. [sendMessage] consults the filter before it touches the user it
    looked up. Whether the connection has joined or not, a profane text
    gets the rejection acknowledgement and no delivery; only a text the
    filter accepts reaches the use of the record, which throws when the
    connection has not joined. *)
Theorem profanity_checked_first sid message w :
  match isProfane message, Users.getUser sid (users w) with
  | true, _ =>
      on_sendMessage isProfane sid message w
      = mkRun (Coords := Coords) (inr tt) w
          [Ack sid (Some "Profanity is not allowed.")]
  | false, None =>
      on_sendMessage isProfane sid message w
      = mkRun (Coords := Coords)
          (inl (TypeError "Cannot read property 'room' of undefined")) w []
  | false, Some u =>
      on_sendMessage isProfane sid message w
      = mkRun (Coords := Coords) (inr tt) w
          [ Deliver (members (room u) w) "message"
              (Message (username u) message (now w));
            Ack sid None ]
  end
  ∧ ∀ exn,
      outcome (on_sendMessage (Coords := Coords) isProfane sid message w)
      = inl exn →
      isProfane message = false ∧ connState sid w = Connected.
Proof.
  unfold connState.
  destruct (isProfane message) eqn:Hp;
    [| destruct (Users.getUser sid (users w)) as [u |] eqn:Hu ].
  - rewrite (on_sendMessage_profane _ _ _ _ Hp). by split.
  - rewrite (on_sendMessage_joined _ _ _ _ _ Hp Hu). by split.
  - rewrite (on_sendMessage_unjoined _ _ _ _ Hp Hu). by split.
Qed.

(** X13. In every state the server can reach, when a socket whose user is
    registered closes, the departure announcement and then the refreshed
    [roomInfo] go through [io.to(user.room)] to the sockets left in the
    socket.io room named [user.room]: the departed socket is not among the
    targets, every other connection whose record carries that same room
    string is, and the list sent is the registry's former list for that
    room name without the departed user. *)
Theorem disconnect_notifies_remaining inputs w sid u :
  w = run (Coords := Coords) toLowerCase isProfane inputs init →
  Users.getUser sid (users w) = Some u →
  let w' := mkWorld (delete sid (users w))
              ((λ s : gset string, s ∖ {[sid]}) <$> rooms w) (now w) in
  let remaining := members (room u) w ∖ {[sid]} in
  let roster := Users.getUsersInRoom (room u) (delete sid (users w)) in
  close (Coords := Coords) sid w
  = mkRun (inr tt) w'
      [ Deliver remaining "message"
          (Message system (username u +:+ " has left the room.") (now w));
        Deliver remaining "roomInfo" (RoomInfo (room u) roster) ]
  ∧ members (room u) w' = remaining
  ∧ (sid ∉ remaining)
  ∧ (∀ c v, users w !! c = Some v → room v = room u → c ≠ sid →
            c ∈ remaining)
  ∧ (∀ v, v ∈ roster ↔
          v ∈ Users.getUsersInRoom (room u) (users w) ∧ id v ≠ sid)
  ∧ (u ∉ roster).
Proof.
  intros Hw Hu w' remaining roster.
  assert (Consistent w) as [[Hkey _] Hin].
  { subst w. apply run_consistent, init_consistent. }
  assert (members (room u) w' = remaining) as Hmem.
  { subst w'. apply members_leave. }
  assert (∀ v, v ∈ roster ↔
               v ∈ Users.getUsersInRoom (room u) (users w) ∧ id v ≠ sid)
    as Hroster.
  { intros v. subst roster. rewrite !UsersFacts.elem_of_getUsersInRoom. split.
    - intros [[k Hk] Hr]. apply lookup_delete_Some in Hk as [Hne Hk].
      apply Hkey in Hk as Hid. split; [split; [by exists k | done] |].
      congruence.
    - intros [[[k Hk] Hr] Hne]. split; [| done]. exists k.
      apply Hkey in Hk as Hid. apply lookup_delete_Some. split; [| done].
      congruence. }
  split; [| split; [done | split; [| split; [| split; [done |]]]]].
  - rewrite close_unfold. set (w1 := mkWorld _ _ _).
    assert (Users.getUser sid (users w1) = Some u) as Hu1 by done.
    rewrite (on_disconnect_joined _ _ _ Hu1). simpl.
    subst w1. rewrite members_leave. reflexivity.
  - subst remaining. rewrite elem_of_difference, elem_of_singleton.
    by intros [_ Hne].
  - intros c v Hc Hroom Hne. subst remaining.
    rewrite elem_of_difference, elem_of_singleton. split; [| done].
    rewrite <- Hroom. by apply Hin.
  - intros Hmember. apply Hroster in Hmember as [_ Hne].
    apply Hne. by apply Hkey.
Qed.

(** X14. In every state the server can reach, a message that the filter
    accepts, sent by a joined connection, is delivered through
    [io.to(user.room)] as a [message] event carrying the username of the
    sender's record to the sockets of the socket.io room named
    [user.room], and [cb()] follows. The sender is one of the targets, and
    so is every connection whose record carries that same room string. *)
Theorem message_reaches_room inputs w sid u message :
  w = run (Coords := Coords) toLowerCase isProfane inputs init →
  Users.getUser sid (users w) = Some u →
  isProfane message = false →
  on_sendMessage isProfane sid message w
  = mkRun (Coords := Coords) (inr tt) w
      [ Deliver (members (room u) w) "message"
          (Message (username u) message (now w));
        Ack sid None ]
  ∧ sid ∈ members (room u) w
  ∧ (∀ c v, users w !! c = Some v → room v = room u →
            c ∈ members (room u) w).
Proof.
  intros Hw Hu Hp.
  assert (Consistent w) as [_ Hin].
  { subst w. apply run_consistent, init_consistent. }
  split; [by apply on_sendMessage_joined | split].
  - by apply Hin.
  - intros c v Hc Hroom. rewrite <- Hroom. by apply Hin.
Qed.

(** C8. A disconnect that finds no user, because the connection never
    joined or because it has been disconnected before (by the handler
    alone, or by the transport closing the socket), does nothing: the
    handler sends no event and leaves the state as it was, so no departure
    is announced twice; a second closing of the socket is a no-op
    altogether. *)
Theorem disconnect_idempotent sid w :
  connState sid w = Connected
  ∨ (∃ w0, w = world (on_disconnect (Coords := Coords) sid w0))
  ∨ (∃ w0, w = world (close (Coords := Coords) sid w0)) →
  on_disconnect (Coords := Coords) sid w = mkRun (inr tt) w []
  ∧ trace (close (Coords := Coords) sid w) = []
  ∧ users (world (close (Coords := Coords) sid w)) = users w
  ∧ ((∃ w0, w = world (close (Coords := Coords) sid w0)) →
     close (Coords := Coords) sid w = mkRun (inr tt) w []).
Proof.
  intros Hcase.
  assert (Users.getUser sid (users w) = None) as Hu.
  { destruct Hcase as [Hc | [[w0 ->] | [w0 ->]]].
    - unfold connState in Hc. by destruct (Users.getUser sid (users w)).
    - rewrite on_disconnect_users. apply lookup_delete_eq.
    - rewrite close_world. apply lookup_delete_eq. }
  rewrite close_unfold. set (w1 := mkWorld _ _ _).
  assert (Users.getUser sid (users w1) = None) as Hu1 by done.
  rewrite (on_disconnect_unjoined _ _ Hu), (on_disconnect_unjoined _ _ Hu1).
  split; [done | split; [done | split; [done |]]].
  intros [w0 Hw0]. f_equal. subst w1.
  assert (rooms w = (λ s : gset string, s ∖ {[sid]}) <$> rooms w0) as Hr.
  { by rewrite Hw0, close_world. }
  rewrite Hr, leave_twice, <- Hr. apply world_eta.
Qed.


End Claims.

(** ** Further properties of the handlers *)
Section Handlers.

Context {Coords : Type}.
Variable toLowerCase : string → string.
Variable isProfane : string → bool.

(** *** The two shapes of a join and of a closing *)

Lemma on_join_cases sid rawUsername rawRoom w :
  (∃ e,
     Users.addUser sid rawUsername rawRoom (users w) = (inl e, users w)
     ∧ on_join (Coords := Coords) toLowerCase sid rawUsername rawRoom w
       = mkRun (inr tt) w [Ack sid (Some (error_text e))])
  ∨ (∃ u,
       Users.addUser sid rawUsername rawRoom (users w)
       = (inr u, <[sid := u]> (users w))
       ∧ on_join (Coords := Coords) toLowerCase sid rawUsername rawRoom w
         = let w' := mkWorld (<[sid := u]> (users w))
                       (<[room u := {[sid]} ∪ members (room u) w]> (rooms w))
                       (now w) in
           mkRun (inr tt) w'
             [ Deliver {[sid]} "message"
                 (Message system
                    ("Welcome " +:+ toLowerCase rawUsername +:+ "!") (now w));
               Deliver (members (room u) w' ∖ {[sid]}) "message"
                 (Message system (username u +:+ " has joined.") (now w));
               Deliver (members (room u) w') "roomInfo"
                 (RoomInfo (room u)
                    (Users.getUsersInRoom (room u) (<[sid := u]> (users w))));
               Ack sid None ]).
Proof.
  destruct (Users.addUser sid rawUsername rawRoom (users w))
    as [[e | u] reg'] eqn:Hadd.
  - apply UsersFacts.addUser_inl in Hadd as Hreg. subst reg'.
    left. exists e. split; [done | by apply on_join_rejected].
  - apply UsersFacts.addUser_inr in Hadd as Hshape.
    destruct Hshape as (_ & -> & _).
    right. exists u. split; [done | by apply on_join_accepted].
Qed.

Lemma close_cases sid w :
  (Users.getUser sid (users w) = None
   ∧ close (Coords := Coords) sid w
     = mkRun (inr tt)
         (mkWorld (users w) ((λ s : gset string, s ∖ {[sid]}) <$> rooms w)
            (now w)) [])
  ∨ (∃ u,
       Users.getUser sid (users w) = Some u
       ∧ close (Coords := Coords) sid w
         = mkRun (inr tt)
             (mkWorld (delete sid (users w))
                ((λ s : gset string, s ∖ {[sid]}) <$> rooms w) (now w))
             [ Deliver (members (room u) w ∖ {[sid]}) "message"
                 (Message system (username u +:+ " has left the room.") (now w));
               Deliver (members (room u) w ∖ {[sid]}) "roomInfo"
                 (RoomInfo (room u)
                    (Users.getUsersInRoom (room u) (delete sid (users w)))) ]).
Proof.
  rewrite close_unfold. set (w1 := mkWorld _ _ _).
  destruct (Users.getUser sid (users w)) as [u |] eqn:Hu.
  - right. exists u. split; [done |].
    assert (Users.getUser sid (users w1) = Some u) as Hu1 by done.
    rewrite (on_disconnect_joined _ _ _ Hu1). simpl.
    subst w1. by rewrite members_leave.
  - left. split; [done |].
    assert (Users.getUser sid (users w1) = None) as Hu1 by done.
    by rewrite (on_disconnect_unjoined _ _ Hu1).
Qed.

(** *** Who sits in a room, in every reachable state *)

Lemma init_rooms_accounted : rooms_accounted init.
Proof.
  intros c r Hc. unfold members, init in Hc. simpl in Hc.
  rewrite lookup_empty in Hc. simpl in Hc. by apply elem_of_empty in Hc.
Qed.

Lemma handle_rooms_accounted w (i : Input Coords) :
  rooms_accounted w →
  rooms_accounted (world (handle toLowerCase isProfane i w)).
Proof.
  intros Hw.
  destruct i as [sid | sid n r | sid m | sid l | sid |]; unfold handle.
  - rewrite on_connection_unfold. simpl. intros c r' Hc.
    rewrite members_join in Hc. simpl. case_decide as Hr.
    + apply elem_of_union in Hc as [Hc%elem_of_singleton | Hc];
        [right; congruence | by apply Hw].
    + by apply Hw.
  - destruct (on_join_cases sid n r w)
      as [(e & _ & ->) | (u & _ & ->)]; [done |].
    simpl. intros c r' Hc. rewrite members_join in Hc. simpl.
    rewrite lookup_insert_is_Some'.
    assert (c ∈ members r' w → (sid = c ∨ is_Some (users w !! c)) ∨ r' = c)
      as Hold.
    { intros Hc'. destruct (Hw c r' Hc') as [? | ?]; [left; by right | by right]. }
    case_decide.
    + apply elem_of_union in Hc as [Hc%elem_of_singleton | Hc];
        [left; by left | by apply Hold].
    + by apply Hold.
  - by rewrite on_sendMessage_world.
  - by rewrite on_sendLocation_world.
  - rewrite close_world. intros c r' Hc. rewrite members_leave in Hc. simpl.
    apply elem_of_difference in Hc as [Hc Hne].
    rewrite elem_of_singleton in Hne.
    rewrite lookup_delete_ne by congruence. by apply Hw.
  - simpl. intros c r' Hc. simpl. by apply Hw.
Qed.

Lemma run_rooms_accounted (inputs : list (Input Coords)) w :
  rooms_accounted w → rooms_accounted (run toLowerCase isProfane inputs w).
Proof.
  revert w.
  induction inputs as [|i inputs IH]; intros w Hw; simpl; [done |].
  pose proof (handle_rooms_accounted w i Hw) as Hstep.
  destruct (outcome (handle toLowerCase isProfane i w)); [done | by apply IH].
Qed.

(** X8. In every state the server can reach, the socket.io rooms and the
    registry agree: a connection with a user record is in the room named
    in its record, and a socket that is in a room has a user record unless
    the room is the private room named by its own id. *)
Theorem reachable_rooms_match_registry (inputs : list (Input Coords)) :
  joined_in_room (run toLowerCase isProfane inputs init)
  ∧ rooms_accounted (run toLowerCase isProfane inputs init).
Proof.
  split.
  - apply (run_consistent toLowerCase isProfane inputs init), init_consistent.
  - apply run_rooms_accounted, init_rooms_accounted.
Qed.

(** X1. In every state the server can reach, a location sent by a joined
    connection is delivered as a [location] event carrying the username of
    the sender's record to the sockets of the sender's room, the sender
    among them, and the empty acknowledgement follows; no filter is
    consulted. *)
Theorem location_reaches_room inputs w sid u (location : Coords) :
  w = run (Coords := Coords) toLowerCase isProfane inputs init →
  Users.getUser sid (users w) = Some u →
  on_sendLocation sid location w
  = mkRun (inr tt) w
      [ Deliver (members (room u) w) "location"
          (Location (username u) location (now w));
        Ack sid None ]
  ∧ sid ∈ members (room u) w.
Proof.
  intros Hw Hu. split; [by apply on_sendLocation_joined |].
  assert (Consistent w) as [_ Hin].
  { subst w. apply run_consistent, init_consistent. }
  by apply Hin.
Qed.

(** X2. Among the inputs modelled (events with a payload of the expected
    shape and an acknowledgement function), the only way a handler throws
    is a [sendMessage] or [sendLocation] of a connection without a user
    record, the message being one that the filter accepts: [join] and
    [disconnect] always return. The exception is raised before anything is
    sent or changed. *)
Theorem only_unjoined_send_throws (i : Input Coords) w e :
  outcome (handle toLowerCase isProfane i w) = inl e →
  handle toLowerCase isProfane i w = mkRun (inl e) w []
  ∧ ∃ sid,
      sender_of i = Some sid ∧ is_send i = true
      ∧ connState sid w = Connected
      ∧ ∀ m, i = SendMessage sid m → isProfane m = false.
Proof.
  unfold connState.
  destruct i as [sid | sid n r | sid m | sid l | sid |]; unfold handle.
  - by rewrite on_connection_unfold.
  - destruct (on_join_cases sid n r w) as [(e' & _ & ->) | (u & _ & ->)]; done.
  - destruct (isProfane m) eqn:Hp.
    { by rewrite (on_sendMessage_profane _ _ _ _ Hp). }
    destruct (Users.getUser sid (users w)) as [u |] eqn:Hu.
    { by rewrite (on_sendMessage_joined _ _ _ _ _ Hp Hu). }
    rewrite (on_sendMessage_unjoined _ _ _ _ Hp Hu). simpl.
    intros [= <-]. split; [done |].
    exists sid. rewrite Hu. repeat split. by intros m' [= <-].
  - destruct (Users.getUser sid (users w)) as [u |] eqn:Hu.
    { by rewrite (on_sendLocation_joined _ _ _ _ Hu). }
    rewrite (on_sendLocation_unjoined _ _ _ Hu). simpl.
    intros [= <-]. split; [done |].
    exists sid. rewrite Hu. repeat split. by intros m' [=].
  - destruct (close_cases sid w) as [[_ ->] | (u & _ & ->)]; done.
  - done.
Qed.

(** X3. An inbound event of a client that its handler deals with to the
    end is acknowledged exactly once, to the sending connection, as the
    last thing the handler does; when the handler throws, the callback is
    never called. What the transport raises itself (a closing socket) is
    never acknowledged. *)
Theorem one_ack_per_event (i : Input Coords) w :
  match sender_of i with
  | Some sid =>
      (outcome (handle toLowerCase isProfane i w) = inr tt →
       ∃ arg,
         acks (trace (handle toLowerCase isProfane i w)) = [(sid, arg)]
         ∧ last (trace (handle toLowerCase isProfane i w)) = Some (Ack sid arg))
      ∧ (∀ e, outcome (handle toLowerCase isProfane i w) = inl e →
              acks (trace (handle toLowerCase isProfane i w)) = [])
  | None => acks (trace (handle toLowerCase isProfane i w)) = []
  end.
Proof.
  destruct i as [sid | sid n r | sid m | sid l | sid |];
    unfold sender_of, handle.
  - by rewrite on_connection_unfold.
  - destruct (on_join_cases sid n r w) as [(e' & _ & ->) | (u & _ & ->)];
      (split; [intros _; by eexists | done]).
  - destruct (isProfane m) eqn:Hp.
    { rewrite (on_sendMessage_profane _ _ _ _ Hp).
      split; [intros _; by eexists | done]. }
    destruct (Users.getUser sid (users w)) as [u |] eqn:Hu.
    + rewrite (on_sendMessage_joined _ _ _ _ _ Hp Hu).
      split; [intros _; by eexists | done].
    + by rewrite (on_sendMessage_unjoined _ _ _ _ Hp Hu).
  - destruct (Users.getUser sid (users w)) as [u |] eqn:Hu.
    + rewrite (on_sendLocation_joined _ _ _ _ Hu).
      split; [intros _; by eexists | done].
    + by rewrite (on_sendLocation_unjoined _ _ _ Hu).
  - destruct (close_cases sid w) as [[_ ->] | (u & _ & ->)]; done.
  - done.
Qed.


(** X7. A join of a connection that has no user record, followed by the
    closing of its socket, leaves the registry as it was, whether the join
    was accepted or rejected, and every room as it was but for the closed
    socket, which is in no room any more. *)
Theorem join_then_close_restores w sid rawUsername rawRoom :
  connState sid w = Connected →
  let w2 := world (close (Coords := Coords) sid
                     (world (on_join (Coords := Coords) toLowerCase
                               sid rawUsername rawRoom w))) in
  users w2 = users w
  ∧ (∀ r, members r w2 = members r w ∖ {[sid]})
  ∧ now w2 = now w.
Proof.
  intros Hc w2.
  assert (users w !! sid = None) as Hu.
  { unfold connState, Users.getUser in Hc. by destruct (users w !! sid). }
  subst w2. rewrite close_world.
  set (wj := world (on_join (Coords := Coords) toLowerCase
                      sid rawUsername rawRoom w)).
  assert (delete sid (users wj) = users w
          ∧ (∀ r, members r wj = members r w
                  ∨ members r wj = {[sid]} ∪ members r w)
          ∧ now wj = now w) as (Husers & Hrooms & Hnow).
  { subst wj.
    destruct (on_join_cases sid rawUsername rawRoom w)
      as [(e' & _ & ->) | (u & _ & ->)]; simpl.
    - split; [by apply delete_id | split; [by left | done]].
    - split; [by rewrite delete_insert_eq, delete_id | split; [| done]].
      intros r. rewrite members_join. case_decide; [by right | by left]. }
  clearbody wj. simpl. split; [done | split; [| done]].
  intros r. rewrite members_leave.
  destruct (Hrooms r) as [-> | ->]; [done |].
  apply set_eq. intros x.
  rewrite !elem_of_difference, elem_of_union, elem_of_singleton.
  split; [intros [[? | ?] ?]; done | intros [? ?]; split; [by right | done]].
Qed.

(** X9. Right after an accepted join the connection can send: its
    location, and any message the filter accepts, return without throwing
    and are delivered under the username of the record just created to the
    room it has just entered, the sender included. *)
Theorem join_then_send sid rawUsername rawRoom w u reg' (location : Coords) :
  Users.addUser sid rawUsername rawRoom (users w) = (inr u, reg') →
  let w' := world (on_join (Coords := Coords) toLowerCase sid rawUsername rawRoom w) in
  on_sendLocation sid location w'
  = mkRun (inr tt) w'
      [ Deliver (members (room u) w') "location"
          (Location (username u) location (now w));
        Ack sid None ]
  ∧ (∀ m, isProfane m = false →
          on_sendMessage isProfane sid m w'
          = mkRun (Coords := Coords) (inr tt) w'
              [ Deliver (members (room u) w') "message"
                  (Message (username u) m (now w));
                Ack sid None ])
  ∧ sid ∈ members (room u) w'.
Proof.
  intros Hadd w'.
  apply UsersFacts.addUser_inr in Hadd as Hshape.
  destruct Hshape as (_ & Hreg & _).
  assert (Users.getUser sid (users w') = Some u ∧ now w' = now w
          ∧ sid ∈ members (room u) w') as (Hu & Hnow & Hin).
  { subst w'. rewrite (on_join_accepted _ _ _ _ _ _ _ Hadd). simpl.
    split; [subst reg'; apply lookup_insert_eq | split; [done |]].
    rewrite members_join, decide_True by done.
    by apply elem_of_union_l, elem_of_singleton. }
  clearbody w'. rewrite <- Hnow. split; [| split; [| done]].
  - by apply on_sendLocation_joined.
  - intros m Hp. by apply on_sendMessage_joined.
Qed.

(** X10. An acknowledgement that carries an error means that nothing else
    happened: whenever a handler calls back with an error string, that
    call is its only effect, no event has been delivered and the state is
    as it was. *)
Theorem error_ack_means_no_effect (i : Input Coords) w conn err :
  Ack conn (Some err) ∈ trace (handle toLowerCase isProfane i w) →
  handle toLowerCase isProfane i w = mkRun (inr tt) w [Ack conn (Some err)]
  ∧ sender_of i = Some conn.
Proof.
  destruct i as [sid | sid n r | sid m | sid l | sid |];
    unfold sender_of, handle.
  - rewrite on_connection_unfold. simpl. intros Hin.
    by apply elem_of_nil in Hin.
  - destruct (on_join_cases sid n r w) as [(e' & _ & ->) | (u & _ & ->)];
      simpl; intros Hin.
    + by apply list_elem_of_singleton in Hin as [= -> ->].
    + repeat (apply elem_of_cons in Hin as [Hin | Hin]);
        try (by apply elem_of_nil in Hin); discriminate Hin.
  - destruct (isProfane m) eqn:Hp.
    { rewrite (on_sendMessage_profane _ _ _ _ Hp). simpl. intros Hin.
      by apply list_elem_of_singleton in Hin as [= -> ->]. }
    destruct (Users.getUser sid (users w)) as [u |] eqn:Hu.
    + rewrite (on_sendMessage_joined _ _ _ _ _ Hp Hu). simpl. intros Hin.
      repeat (apply elem_of_cons in Hin as [Hin | Hin]);
        try (by apply elem_of_nil in Hin); discriminate Hin.
    + rewrite (on_sendMessage_unjoined _ _ _ _ Hp Hu). simpl. intros Hin.
      by apply elem_of_nil in Hin.
  - destruct (Users.getUser sid (users w)) as [u |] eqn:Hu.
    + rewrite (on_sendLocation_joined _ _ _ _ Hu). simpl. intros Hin.
      repeat (apply elem_of_cons in Hin as [Hin | Hin]);
        try (by apply elem_of_nil in Hin); discriminate Hin.
    + rewrite (on_sendLocation_unjoined _ _ _ Hu). simpl. intros Hin.
      by apply elem_of_nil in Hin.
  - destruct (close_cases sid w) as [[_ ->] | (u & _ & ->)]; simpl; intros Hin.
    + by apply elem_of_nil in Hin.
    + repeat (apply elem_of_cons in Hin as [Hin | Hin]);
        try (by apply elem_of_nil in Hin); discriminate Hin.
  - simpl. intros Hin. by apply elem_of_nil in Hin.
Qed.

(** X11. In every state the server can reach, an empty acknowledgement
    vouches for a delivery to the caller itself: the handler that sends it
    has delivered an event whose targets include the acknowledged
    connection, and the acknowledgement is the last thing it did. *)
Theorem success_ack_echo inputs w (i : Input Coords) conn :
  w = run (Coords := Coords) toLowerCase isProfane inputs init →
  Ack conn None ∈ trace (handle toLowerCase isProfane i w) →
  (∃ targets event data,
     Deliver targets event data ∈ trace (handle toLowerCase isProfane i w)
     ∧ conn ∈ targets)
  ∧ last (trace (handle toLowerCase isProfane i w)) = Some (Ack conn None).
Proof.
  intros Hw.
  assert (Consistent w) as [_ Hjoined].
  { subst w. apply run_consistent, init_consistent. }
  clear Hw.
  destruct i as [sid | sid n r | sid m | sid l | sid |]; unfold handle.
  - rewrite on_connection_unfold. simpl. intros Hin.
    by apply elem_of_nil in Hin.
  - destruct (on_join_cases sid n r w) as [(e' & _ & ->) | (u & _ & ->)];
      simpl; intros Hin.
    + by apply list_elem_of_singleton in Hin.
    + repeat (apply elem_of_cons in Hin as [Hin | Hin]);
        try (by apply elem_of_nil in Hin); try discriminate Hin.
      injection Hin as ->. split; [| done].
      eexists _, _, _. split; [by apply list_elem_of_here |].
      by apply elem_of_singleton.
  - destruct (isProfane m) eqn:Hp.
    { rewrite (on_sendMessage_profane _ _ _ _ Hp). simpl. intros Hin.
      by apply list_elem_of_singleton in Hin. }
    destruct (Users.getUser sid (users w)) as [u |] eqn:Hu.
    + rewrite (on_sendMessage_joined _ _ _ _ _ Hp Hu). simpl. intros Hin.
      repeat (apply elem_of_cons in Hin as [Hin | Hin]);
        try (by apply elem_of_nil in Hin); try discriminate Hin.
      injection Hin as ->. split; [| done].
      eexists _, _, _. split; [by apply list_elem_of_here | by apply Hjoined].
    + rewrite (on_sendMessage_unjoined _ _ _ _ Hp Hu). simpl. intros Hin.
      by apply elem_of_nil in Hin.
  - destruct (Users.getUser sid (users w)) as [u |] eqn:Hu.
    + rewrite (on_sendLocation_joined _ _ _ _ Hu). simpl. intros Hin.
      repeat (apply elem_of_cons in Hin as [Hin | Hin]);
        try (by apply elem_of_nil in Hin); try discriminate Hin.
      injection Hin as ->. split; [| done].
      eexists _, _, _. split; [by apply list_elem_of_here | by apply Hjoined].
    + rewrite (on_sendLocation_unjoined _ _ _ Hu). simpl. intros Hin.
      by apply elem_of_nil in Hin.
  - destruct (close_cases sid w) as [[_ ->] | (u & _ & ->)]; simpl; intros Hin.
    + by apply elem_of_nil in Hin.
    + repeat (apply elem_of_cons in Hin as [Hin | Hin]);
        try (by apply elem_of_nil in Hin); discriminate Hin.
  - simpl. intros Hin. by apply elem_of_nil in Hin.
Qed.

(** X4. The [sendMessage] and [sendLocation] handlers never modify the
    registry, the rooms or the clock: whether the event is delivered,
    rejected as profane, or the handler throws, the state it leaves is the
    state it found. *)
Theorem sends_leave_no_mark sid message (location : Coords) w :
  world (on_sendMessage (Coords := Coords) isProfane sid message w) = w
  ∧ world (on_sendLocation sid location w) = w.
Proof.
  split; [apply on_sendMessage_world | apply on_sendLocation_world].
Qed.

End Handlers.

Section Frame.

Context {Coords : Type}.
Variable toLowerCase : string → string.

(** X6. A join and the closing of a socket touch nobody else: the user
    record of any other connection and its membership of every room are
    the same before and after. A join never takes any socket out of any
    room. *)
Theorem join_close_frame sid c rawUsername rawRoom w :
  c ≠ sid →
  let wj := world (on_join (Coords := Coords) toLowerCase sid rawUsername rawRoom w) in
  let wc := world (close (Coords := Coords) sid w) in
  users wj !! c = users w !! c
  ∧ (∀ r, c ∈ members r wj ↔ c ∈ members r w)
  ∧ users wc !! c = users w !! c
  ∧ (∀ r, c ∈ members r wc ↔ c ∈ members r w)
  ∧ (∀ r, members r w ⊆ members r wj).
Proof.
  intros Hne wj wc.
  assert (∀ r, members r wj
               = members r w
               ∨ members r wj = {[sid]} ∪ members r w) as Hj.
  { intros r. subst wj.
    destruct (on_join_cases (Coords := Coords) toLowerCase
                sid rawUsername rawRoom w)
      as [(e' & _ & ->) | (u & _ & ->)]; simpl; [by left |].
    rewrite members_join. case_decide; [by right | by left]. }
  split; [| split; [| split; [| split]]].
  - subst wj.
    destruct (on_join_cases (Coords := Coords) toLowerCase
                sid rawUsername rawRoom w)
      as [(e' & _ & ->) | (u & _ & ->)]; simpl; [done |].
    by apply lookup_insert_ne.
  - intros r. destruct (Hj r) as [-> | ->]; [done |].
    rewrite elem_of_union, elem_of_singleton.
    split; [by intros [? | ?] | by right].
  - subst wc. rewrite close_world. simpl. by apply lookup_delete_ne.
  - intros r. subst wc. rewrite close_world, members_leave.
    rewrite elem_of_difference, elem_of_singleton.
    split; [by intros [? _] | by intros ?; split].
  - intros r x Hx. destruct (Hj r) as [-> | ->]; [done |].
    by apply elem_of_union_r.
Qed.

End Frame.

(** ** The theorems at work on the lobby *)

Example trim_alice : Js.trim "  Alice " = "Alice".
Proof. reflexivity. Qed.

Example add_alice :
  Users.addUser "s1" " Alice " "lobby" ∅ = (inr alice, {[ "s1" := alice ]}).
Proof. vm_compute. reflexivity. Qed.

Example add_alice_again :
  (Users.addUser "s4" "alice" "LOBBY" (users lobby)).1 = inl UsernameTaken.
Proof. vm_compute. reflexivity. Qed.

Example lobby_roster_any_case :
  Users.getUsersInRoom "LOBBY" (users lobby) = [alice; bob].
Proof. vm_compute. reflexivity. Qed.

Lemma unjoined_send_throws_witness :
  connState "s9" lobby = Connected
  ∧ on_sendLocation "s9" tt lobby
    = mkRun (inl (TypeError "Cannot read property 'room' of undefined")) lobby []
  ∧ on_sendMessage no_darn "s9" "hello" lobby
    = mkRun (Coords := unit)
        (inl (TypeError "Cannot read property 'room' of undefined")) lobby [].
Proof.
  assert (connState "s9" lobby = Connected) as Hc by (vm_compute; reflexivity).
  destruct (unjoined_send_throws (Coords := unit) no_darn "s9" lobby Hc)
    as [Hloc Hmsg].
  split; [exact Hc | split; [apply Hloc | apply Hmsg; reflexivity]].
Defined.

Lemma registry_invariant_preserved_witness :
  Users.RegistryInv ∅
  ∧ Users.Unique
      (Users.exec
         [ Users.Add "s1" " Alice " "lobby"; Users.Add "s2" "alice" "Lobby";
           Users.Add "s2" "Bob" "lobby"; Users.Remove "s1" ] ∅).
Proof.
  split; [apply UsersFacts.RegistryInv_empty |].
  apply (registry_invariant_preserved _ ∅), UsersFacts.RegistryInv_empty.
Defined.

Lemma join_success_effects_witness :
  Users.addUser "s3" " Carol " "lobby" (users lobby)
  = (inr carol, <["s3" := carol]> (users lobby))
  ∧ trace (on_join (Coords := unit) Js.toLowerCase "s3" " Carol " "lobby" lobby)
    = [ Deliver {["s3"]} "message" (Message "Chat App" "Welcome  carol !" 0);
        Deliver {["s1"; "s2"]} "message"
          (Message "Chat App" "Carol has joined." 0);
        Deliver {["s1"; "s2"; "s3"]} "roomInfo"
          (RoomInfo "lobby"
             (Users.getUsersInRoom "lobby" (<["s3" := carol]> (users lobby))));
        Ack "s3" None ].
Proof.
  assert (Users.addUser "s3" " Carol " "lobby" (users lobby)
          = (inr carol, <["s3" := carol]> (users lobby))) as Hadd
    by (vm_compute; reflexivity).
  split; [exact Hadd |].
  destruct (join_success_effects (Coords := unit) Js.toLowerCase
              _ _ _ _ _ _ Hadd) as [-> _].
  vm_compute. reflexivity.
Defined.

Lemma disconnect_notifies_remaining_witness :
  Users.getUser "s1" (users lobby) = Some alice
  ∧ trace (close (Coords := unit) "s1" lobby)
    = [ Deliver {["s2"]} "message"
          (Message "Chat App" "Alice has left the room." 0);
        Deliver {["s2"]} "roomInfo" (RoomInfo "lobby" [bob]) ].
Proof.
  assert (Users.getUser "s1" (users lobby) = Some alice) as Hu
    by (vm_compute; reflexivity).
  split; [exact Hu |].
  destruct (disconnect_notifies_remaining (Coords := unit)
              Js.toLowerCase no_darn
              lobby_inputs
              lobby "s1" alice eq_refl Hu) as [-> _].
  vm_compute. reflexivity.
Defined.

Lemma profane_message_rejected_witness :
  no_darn "darn" = true
  ∧ on_sendMessage no_darn "s1" "darn" lobby
    = mkRun (Coords := unit) (inr tt) lobby
        [Ack "s1" (Some "Profanity is not allowed.")].
Proof.
  split; [reflexivity |].
  apply (profane_message_rejected (Coords := unit) no_darn "s1" "darn" lobby).
  reflexivity.
Defined.

Lemma message_reaches_room_witness :
  Users.getUser "s1" (users lobby) = Some alice
  ∧ no_darn "hello" = false
  ∧ trace (on_sendMessage (Coords := unit) no_darn "s1" "hello" lobby)
    = [ Deliver {["s1"; "s2"]} "message" (Message "Alice" "hello" 0);
        Ack "s1" None ]
  ∧ "s1" ∈ members "lobby" lobby.
Proof.
  assert (Users.getUser "s1" (users lobby) = Some alice) as Hu
    by (vm_compute; reflexivity).
  split; [exact Hu | split; [reflexivity |]].
  destruct (message_reaches_room (Coords := unit) Js.toLowerCase no_darn
              lobby_inputs
              lobby "s1" alice "hello" eq_refl Hu eq_refl) as [-> [Hin _]].
  split; [vm_compute; reflexivity | exact Hin].
Defined.

Lemma join_failure_witness :
  Users.Invalid "alice" " LOBBY" (users lobby) UsernameTaken
  ∧ on_join (Coords := unit) Js.toLowerCase "s3" "alice" " LOBBY" lobby
    = mkRun (inr tt) lobby [Ack "s3" (Some "UsernameTaken")].
Proof.
  assert (Users.Invalid "alice" " LOBBY" (users lobby) UsernameTaken) as Hbad.
  { apply (Users.duplicate_username _ _ _ "s1" alice);
      [discriminate | discriminate | | |]; vm_compute; reflexivity. }
  split; [exact Hbad |].
  apply (join_failure (Coords := unit) Js.toLowerCase "s3" _ _ _ _ Hbad).
Defined.

Lemma disconnect_idempotent_witness :
  close (Coords := unit) "s1" (world (close (Coords := unit) "s1" lobby))
  = mkRun (inr tt) (world (close (Coords := unit) "s1" lobby)) [].
Proof.
  assert (∃ w0, world (close (Coords := unit) "s1" lobby)
                = world (close (Coords := unit) "s1" w0)) as Hagain
    by (by exists lobby).
  destruct (disconnect_idempotent (Coords := unit) "s1" _
              (or_intror (or_intror Hagain)))
    as (_ & _ & _ & Hclose).
  exact (Hclose Hagain).
Defined.


Lemma location_reaches_room_witness :
  Users.getUser "s2" (users lobby) = Some bob
  ∧ trace (on_sendLocation "s2" tt lobby)
    = [ Deliver {["s1"; "s2"]} "location" (Location "Bob" tt 0);
        Ack "s2" None ]
  ∧ "s2" ∈ members "lobby" lobby.
Proof.
  assert (Users.getUser "s2" (users lobby) = Some bob) as Hu
    by (vm_compute; reflexivity).
  split; [exact Hu |].
  destruct (location_reaches_room (Coords := unit) Js.toLowerCase no_darn
              lobby_inputs
              lobby "s2" bob tt eq_refl Hu) as [-> Hin].
  split; [vm_compute; reflexivity | exact Hin].
Defined.

Lemma only_unjoined_send_throws_witness :
  outcome (handle (Coords := unit) Js.toLowerCase no_darn (SendMessage "s9" "hello") lobby)
  = inl (TypeError "Cannot read property 'room' of undefined")
  ∧ handle (Coords := unit) Js.toLowerCase no_darn (SendMessage "s9" "hello") lobby
    = mkRun (inl (TypeError "Cannot read property 'room' of undefined"))
        lobby [].
Proof.
  assert (outcome (handle (Coords := unit) Js.toLowerCase no_darn
                     (SendMessage "s9" "hello") lobby)
          = inl (TypeError "Cannot read property 'room' of undefined")) as Hthrow
    by (vm_compute; reflexivity).
  split; [exact Hthrow |].
  destruct (only_unjoined_send_throws (Coords := unit)
              Js.toLowerCase no_darn _ _ _ Hthrow) as (Hrun & _).
  exact Hrun.
Defined.


Lemma join_then_close_restores_witness :
  connState "s3" lobby = Connected
  ∧ users (world (close (Coords := unit) "s3"
                    (world (on_join (Coords := unit) Js.toLowerCase
                              "s3" "Carol" "lobby" lobby))))
    = users lobby.
Proof.
  assert (connState "s3" lobby = Connected) as Hc by (vm_compute; reflexivity).
  split; [exact Hc |].
  destruct (join_then_close_restores (Coords := unit) Js.toLowerCase
              lobby "s3" "Carol" "lobby" Hc) as [Husers _].
  exact Husers.
Defined.

Lemma join_close_frame_witness :
  "s2" ≠ "s1"
  ∧ users (world (close (Coords := unit) "s1" lobby)) !! "s2"
    = users lobby !! "s2"
  ∧ users (world (on_join (Coords := unit) Js.toLowerCase "s1" "Al" "den" lobby)) !! "s2"
    = users lobby !! "s2".
Proof.
  assert ("s2" ≠ "s1") as Hne by discriminate.
  split; [exact Hne |].
  destruct (join_close_frame (Coords := unit) Js.toLowerCase
              "s1" "s2" "Al" "den" lobby Hne)
    as (Hj & _ & Hc & _).
  split; [exact Hc | exact Hj].
Defined.

Lemma join_then_send_witness :
  Users.addUser "s3" " Carol " "lobby" (users lobby)
  = (inr carol, <["s3" := carol]> (users lobby))
  ∧ trace (on_sendLocation "s3" tt
             (world (on_join (Coords := unit) Js.toLowerCase "s3" " Carol " "lobby" lobby)))
    = [ Deliver {["s1"; "s2"; "s3"]} "location" (Location "Carol" tt 0);
        Ack "s3" None ].
Proof.
  assert (Users.addUser "s3" " Carol " "lobby" (users lobby)
          = (inr carol, <["s3" := carol]> (users lobby))) as Hadd
    by (vm_compute; reflexivity).
  split; [exact Hadd |].
  destruct (join_then_send (Coords := unit) Js.toLowerCase no_darn
              _ _ _ _ _ _ tt Hadd)
    as [-> _].
  vm_compute. reflexivity.
Defined.

Lemma error_ack_means_no_effect_witness :
  Ack "s1" (Some "Profanity is not allowed.")
  ∈ trace (handle (Coords := unit) Js.toLowerCase no_darn (SendMessage "s1" "darn") lobby)
  ∧ handle (Coords := unit) Js.toLowerCase no_darn (SendMessage "s1" "darn") lobby
    = mkRun (inr tt) lobby [Ack "s1" (Some "Profanity is not allowed.")].
Proof.
  assert (Ack "s1" (Some "Profanity is not allowed.")
          ∈ trace (handle (Coords := unit) Js.toLowerCase no_darn
                     (SendMessage "s1" "darn") lobby)) as Hin
    by apply list_elem_of_here.
  split; [exact Hin |].
  destruct (error_ack_means_no_effect (Coords := unit)
              Js.toLowerCase no_darn _ _ _ _ Hin)
    as [Hrun _].
  exact Hrun.
Defined.

Lemma success_ack_echo_witness :
  Ack "s3" None
  ∈ trace (handle (Coords := unit) Js.toLowerCase no_darn (Join "s3" "Carol" "lobby") lobby)
  ∧ last (trace (handle (Coords := unit) Js.toLowerCase no_darn
                   (Join "s3" "Carol" "lobby") lobby))
    = Some (Ack "s3" None).
Proof.
  assert (Ack "s3" None
          ∈ trace (handle (Coords := unit) Js.toLowerCase no_darn
                     (Join "s3" "Carol" "lobby") lobby)) as Hin.
  { vm_compute. do 3 apply list_elem_of_further. apply list_elem_of_here. }
  split; [exact Hin |].
  destruct (success_ack_echo (Coords := unit) Js.toLowerCase no_darn
              lobby_inputs
              lobby _ _ eq_refl Hin) as [_ Hlast].
  exact Hlast.
Defined.
